(** * Deferred logging: the engine of [app/inc/logger.h]

    A shallow embedding of the header-only logger: the severity order, the
    compile-time interning of format literals into static storage declared
    with per-severity section attributes, the CRTP engine [Logger<Derived>]
    with its level filter, and the type-driven serialisation of the
    arguments.

    The engine talks to two collaborators, the sink ([Derived]) and the tick
    provider ([SysTick]).  Both are interfaces here; every call the engine
    makes on them is also written to a chronological call history, so that
    "which calls, how many, in which order" can be stated. *)

From Stdlib Require Import List ZArith NArith Bool Ascii String Lia.
Import ListNotations.

Set Implicit Arguments.

(** ** Severity levels *)

(** [enum class LogLevel { DEBUG, INFO, WARNING, ERROR, OFF }]. *)
Inductive LogLevel : Type := DEBUG | INFO | WARNING | ERROR | OFF.

(** The underlying value of each enumerator (declaration order, from 0). *)
Definition underlying (l : LogLevel) : Z :=
  match l with
  | DEBUG => 0
  | INFO => 1
  | WARNING => 2
  | ERROR => 3
  | OFF => 4
  end%Z.

(** The built-in [<] of a scoped enumeration compares underlying values. *)
Definition level_lt (a b : LogLevel) : bool := (underlying a <? underlying b)%Z.

Definition LogLevel_eq_dec (a b : LogLevel) : {a = b} + {a <> b}.
Proof. decide equality. Defined.

(** ** Static storage and pointers *)

(** The four class templates that own interned storage. *)
Inductive InternTemplate : Type :=
| InternedDebugString
| InternedInfoString
| InternedWarningString
| InternedErrorString.

(** Objects a pointer can point into.  [StaticString t N] is the static data
    member [string] of the specialisation [t<N...>]: one object per template
    and per argument pack.  [OtherObject] stands for any other storage (string
    literals, buffers) a caller may pass. *)
Inductive Object : Type :=
| StaticString (t : InternTemplate) (N : list ascii)
| OtherObject (id : positive).

(** [__attribute__((section(...)))] of each template's [string] member. *)
Definition section_of (t : InternTemplate) : string :=
  match t with
  | InternedDebugString => ".interned_strings.debug"
  | InternedInfoString => ".interned_strings.info"
  | InternedWarningString => ".interned_strings.warning"
  | InternedErrorString => ".interned_strings.error"
  end.

(** The section the declaration of an object asks for, when it carries a
    section attribute.  This is what the source says; whether the toolchain
    places the object there is not part of this development. *)
Definition declared_section (o : Object) : option string :=
  match o with
  | StaticString t _ => Some (section_of t)
  | OtherObject _ => None
  end.

(** [static constexpr char string[] { N... }]: the array holds the pack. *)
Definition object_contents (o : Object) : option (list ascii) :=
  match o with
  | StaticString _ N => Some N
  | OtherObject _ => None
  end.

(** A pointer value: the object pointed into and the element offset.  Two
    pointers are equal when both agree; distinct objects share no address. *)
Record Pointer : Type := mkPointer { block : Object; offset : Z }.

(** Array-to-pointer conversion: the address of the first element. *)
Definition decay (o : Object) : Pointer := {| block := o; offset := 0 |}.

(** [struct InternedString { const char* str; }]. *)
Record InternedString : Type := mkInternedString { str : Pointer }.

(** ** The literal operators *)

(** [T{}] for [T = char]: the terminating zero appended to the pack. *)
Definition NUL : ascii := zero.

(** [operator ""_intern_debug<T, C...>()] and its three siblings: the handle
    is the member [string] of the owning template at [<C..., T{}>]. *)
Definition intern_debug (C : list ascii) : InternedString :=
  {| str := decay (StaticString InternedDebugString (C ++ [NUL])) |}.

Definition intern_info (C : list ascii) : InternedString :=
  {| str := decay (StaticString InternedInfoString (C ++ [NUL])) |}.

Definition intern_warning (C : list ascii) : InternedString :=
  {| str := decay (StaticString InternedWarningString (C ++ [NUL])) |}.

Definition intern_error (C : list ascii) : InternedString :=
  {| str := decay (StaticString InternedErrorString (C ++ [NUL])) |}.

(** The literal operator the macro of each severity pastes onto its format;
    no macro and no operator exists for [OFF]. *)
Definition intern (severity : LogLevel) (fmt : list ascii) : option InternedString :=
  match severity with
  | DEBUG => Some (intern_debug fmt)
  | INFO => Some (intern_info fmt)
  | WARNING => Some (intern_warning fmt)
  | ERROR => Some (intern_error fmt)
  | OFF => None
  end.

(** The storage region meant for a severity: the section name that carries
    the severity's name.  [OFF] has none. *)
Definition designated_section (severity : LogLevel) : option string :=
  match severity with
  | DEBUG => Some ".interned_strings.debug"%string
  | INFO => Some ".interned_strings.info"%string
  | WARNING => Some ".interned_strings.warning"%string
  | ERROR => Some ".interned_strings.error"%string
  | OFF => None
  end.

(** ** Collaborators *)

(** Modelled from the spec: no concrete sink is part of the sources.  The
    engine requires of [Derived] exactly the four operations it calls;
    [appendData] receives the bytes found behind its pointer argument and the
    length. *)
Class Sink (Derived : Type) : Type := {
  startMessage : N -> Derived -> Derived;
  appendData : list Byte.byte -> N -> Derived -> Derived;
  appendString : Pointer -> Derived -> Derived;
  finishMessage : Derived -> Derived
}.

(** Modelled from the spec: [hal/systick.h] is not part of the sources.  The
    provider is any state with a read that returns the coarse tick count;
    the read may leave the provider in another state. *)
Class TickProvider (SysTick : Type) : Type := {
  getCoarseTickCount : SysTick -> N * SysTick
}.

(** What the function template [sendArgument<T>] needs of [T]: [sizeof(T)]
    and the bytes of the object, read through [const uint8_t*]. *)
Class ObjectType (T : Type) : Type := {
  sizeof : N;
  object_representation : T -> list Byte.byte
}.

Arguments sizeof T {_}.

(** The target: the size of a pointer and the bytes of a pointer value are
    fixed by the toolchain, not by the header, and stay parameters. *)
Class Target : Type := {
  sizeof_pointer : N;
  pointer_representation : Pointer -> list Byte.byte
}.

(** [InternedString] has a single [const char*] member. *)
#[export] Instance InternedString_object `{Target} : ObjectType InternedString := {
  sizeof := sizeof_pointer;
  object_representation s := pointer_representation (str s)
}.

(** [char*], a pointer to characters that can be written through: the type
    of a [char] array after array-to-pointer conversion.  It has the size and
    the bytes of a pointer. *)
Record CharPtr : Type := mkCharPtr { char_ptr : Pointer }.

#[export] Instance CharPtr_object `{Target} : ObjectType CharPtr := {
  sizeof := sizeof_pointer;
  object_representation p := pointer_representation (char_ptr p)
}.

(** An argument of a [log] call, by the overload of [sendArgument] its static
    type selects: [const char*] takes the non-template overload, every other
    type [T] the template. *)
Inductive Arg : Type :=
| ByValue (T : Type) (OT : ObjectType T) (argument : T)
| ConstCharPtr (argument : Pointer).

Arguments ByValue {T OT} argument.

(** A null-terminated string as a caller passes it, by its static type after
    array-to-pointer conversion: [const char*] (a string literal, a
    [const char] array) or [char*] (a [char] array, a buffer). *)
Inductive Text : Type :=
| ConstText (p : Pointer)
| MutableText (p : Pointer).

(** Overload resolution of [sendArgument] on a string.  [const char*] is the
    parameter type of the non-template overload.  For [char*] the template
    deduces [T = char*], an exact match, while the non-template overload
    needs the conversion to [const char*]: the template is selected. *)
Definition text_arg `{Target} (t : Text) : Arg :=
  match t with
  | ConstText p => ConstCharPtr p
  | MutableText p => ByValue {| char_ptr := p |}
  end.

(** A call made by the engine on one of its collaborators.
    [GetCoarseTickCount t] is a read of the provider that returned [t]. *)
Inductive Call : Type :=
| GetCoarseTickCount (tick : N)
| StartMessage (tick : N)
| AppendData (data : list Byte.byte) (length : N)
| AppendString (text : Pointer)
| FinishMessage.

Definition is_tick_read (c : Call) : bool :=
  match c with GetCoarseTickCount _ => true | _ => false end.

Definition is_start (c : Call) : bool :=
  match c with StartMessage _ => true | _ => false end.

Definition is_finish (c : Call) : bool :=
  match c with FinishMessage => true | _ => false end.

Definition is_append (c : Call) : bool :=
  match c with AppendData _ _ | AppendString _ => true | _ => false end.

(** Number of calls of a history that satisfy [p]. *)
Definition count (p : Call -> bool) (h : list Call) : nat :=
  List.length (filter p h).

(** ** Member functions as state transformers *)

(** A member function that returns [A] while it may change the state [S]. *)
Definition M (S A : Type) : Type := S -> A * S.

Definition ret {S A : Type} (a : A) : M S A := fun s => (a, s).

Definition bind {S A B : Type} (m : M S A) (k : A -> M S B) : M S B :=
  fun s => k (fst (m s)) (snd (m s)).

(** The state a member function leaves behind. *)
Definition exec {S A : Type} (m : M S A) (s : S) : S := snd (m s).

Declare Scope logger_scope.
Delimit Scope logger_scope with logger.

Notation "x <- c1 ;; c2" := (bind c1 (fun x => c2))
  (at level 61, c1 at next level, right associativity) : logger_scope.
Notation "c1 ;; c2" := (bind c1 (fun _ => c2))
  (at level 61, right associativity) : logger_scope.

Open Scope logger_scope.

(** ** The engine *)

Section Engine.

Context {Derived SysTick : Type}.
Context {sink : Sink Derived} {ticks : TickProvider SysTick}.

(** The data members of [Logger<Derived>].  [m_derived] and [m_systick] are
    references; the record holds the state of the objects they refer to. *)
Record Logger : Type := mkLogger {
  m_level : LogLevel;
  m_derived : Derived;
  m_systick : SysTick
}.

(** A logger together with the calls made on its collaborators so far,
    oldest first. *)
Record Run : Type := mkRun {
  self : Logger;
  history : list Call
}.

(** The default member initialisers: [m_level = LogLevel::DEBUG], [m_derived]
    bound to the derived object and [m_systick] to the provider instance. *)
Definition new_Logger (derived : Derived) (systick : SysTick) : Logger :=
  {| m_level := DEBUG; m_derived := derived; m_systick := systick |}.

(** A freshly constructed logger on which nothing has been called yet. *)
Definition start (derived : Derived) (systick : SysTick) : Run :=
  {| self := new_Logger derived systick; history := [] |}.

(** Reading [m_level]. *)
Definition get_level : M Run LogLevel := fun r => (m_level (self r), r).

(** [m_systick.getCoarseTickCount()]. *)
Definition systick_getCoarseTickCount : M Run N :=
  fun r =>
    let l := self r in
    let (tick, systick') := getCoarseTickCount (m_systick l) in
    (tick,
     {| self := {| m_level := m_level l; m_derived := m_derived l;
                   m_systick := systick' |};
        history := history r ++ [GetCoarseTickCount tick] |}).

(** A call [m_derived.op(...)]: the sink moves by [op] and the call is
    written to the history. *)
Definition derived_call (c : Call) (op : Derived -> Derived) : M Run unit :=
  fun r =>
    let l := self r in
    (tt,
     {| self := {| m_level := m_level l; m_derived := op (m_derived l);
                   m_systick := m_systick l |};
        history := history r ++ [c] |}).

Definition derived_startMessage (tick : N) : M Run unit :=
  derived_call (StartMessage tick) (startMessage tick).

Definition derived_appendData (data : list Byte.byte) (length : N) : M Run unit :=
  derived_call (AppendData data length) (appendData data length).

Definition derived_appendString (text : Pointer) : M Run unit :=
  derived_call (AppendString text) (appendString text).

Definition derived_finishMessage : M Run unit :=
  derived_call FinishMessage finishMessage.

(** [template<typename T> void sendArgument(const T argument)]. *)
Definition sendArgument_value {T : Type} {OT : ObjectType T} (argument : T)
  : M Run unit :=
  derived_appendData (object_representation argument) (sizeof T).

(** [void sendArgument(const char* argument)]. *)
Definition sendArgument_text (argument : Pointer) : M Run unit :=
  derived_appendString argument.

(** The call [sendArgument(first_arg)], resolved by the argument's type. *)
Definition sendArgument (a : Arg) : M Run unit :=
  match a with
  | ByValue argument => sendArgument_value argument
  | ConstCharPtr argument => sendArgument_text argument
  end.

(** The two overloads of [sendRemainingArguments]: one argument, or a first
    argument followed by a non-empty pack. *)
Fixpoint sendRemainingArguments (first_arg : Arg) (args : list Arg)
  : M Run unit :=
  match args with
  | [] => sendArgument first_arg
  | next :: rest =>
      sendArgument first_arg ;; sendRemainingArguments next rest
  end.

(** [Logger::log(level, args...)].  The pack cannot be empty (no overload of
    [sendRemainingArguments] takes no argument): it is [first_arg :: args]. *)
Definition log (level : LogLevel) (first_arg : Arg) (args : list Arg)
  : M Run unit :=
  threshold <- get_level ;;
  if level_lt level threshold then ret tt
  else
    tick <- systick_getCoarseTickCount ;;
    derived_startMessage tick ;;
    sendRemainingArguments first_arg args ;;
    derived_finishMessage.

(** [Logger::printfFmtValidator(fmt, ...)]: the body is empty. *)
Definition printfFmtValidator (fmt : list ascii) (args : list Arg)
  : M Run unit := ret tt.

(** [Logger::setLevel(level)]. *)
Definition setLevel (level : LogLevel) : M Run unit :=
  fun r =>
    let l := self r in
    (tt,
     {| self := {| m_level := level; m_derived := m_derived l;
                   m_systick := m_systick l |};
        history := history r |}).

(** The four macros: validate, then log at the macro's severity with the
    format interned by the macro's literal operator.  [args] are the values
    of the argument expressions; the expansion writes the expressions twice,
    once in each call, and they are taken to have no effects. *)
Definition LOG_DEBUG `{Target} (fmt : list ascii) (args : list Arg) : M Run unit :=
  printfFmtValidator fmt args ;;
  log DEBUG (ByValue (intern_debug fmt)) args.

Definition LOG_INFO `{Target} (fmt : list ascii) (args : list Arg) : M Run unit :=
  printfFmtValidator fmt args ;;
  log INFO (ByValue (intern_info fmt)) args.

Definition LOG_WARNING `{Target} (fmt : list ascii) (args : list Arg) : M Run unit :=
  printfFmtValidator fmt args ;;
  log WARNING (ByValue (intern_warning fmt)) args.

Definition LOG_ERROR `{Target} (fmt : list ascii) (args : list Arg) : M Run unit :=
  printfFmtValidator fmt args ;;
  log ERROR (ByValue (intern_error fmt)) args.

(** *** Sequences of calls on one logger *)

(** One call of [log]: its severity and its non-empty argument pack. *)
Record LogCall : Type := mkLogCall {
  call_level : LogLevel;
  call_first : Arg;
  call_args : list Arg
}.

Definition do_log (c : LogCall) : M Run unit :=
  log (call_level c) (call_first c) (call_args c).

(** A call of one of the two public state-changing members. *)
Inductive Operation : Type :=
| CallLog (c : LogCall)
| CallSetLevel (level : LogLevel).

Definition perform (op : Operation) : M Run unit :=
  match op with
  | CallLog c => do_log c
  | CallSetLevel level => setLevel level
  end.

(** The operations of a list, performed one after the other. *)
Fixpoint perform_all (ops : list Operation) : M Run unit :=
  match ops with
  | [] => ret tt
  | op :: rest => perform op ;; perform_all rest
  end.

(** *** What a record should be *)

(** The sink call one argument stands for. *)
Definition call_of_arg (a : Arg) : Call :=
  match a with
  | @ByValue T OT argument => AppendData (object_representation argument) (sizeof T)
  | ConstCharPtr argument => AppendString argument
  end.

(** The calls of one record: the tick read, the opening call with that tick,
    one append per argument in call order, the closing call. *)
Definition record (tick : N) (first_arg : Arg) (args : list Arg) : list Call :=
  [GetCoarseTickCount tick; StartMessage tick]
    ++ map call_of_arg (first_arg :: args) ++ [FinishMessage].

(** The effect of a call on the sink; a tick read does not touch it. *)
Definition replay_call (c : Call) (d : Derived) : Derived :=
  match c with
  | GetCoarseTickCount _ => d
  | StartMessage tick => startMessage tick d
  | AppendData data length => appendData data length d
  | AppendString text => appendString text d
  | FinishMessage => finishMessage d
  end.

(** The effect of a sequence of calls on the sink, oldest first. *)
Definition replay (calls : list Call) (d : Derived) : Derived :=
  fold_left (fun d c => replay_call c d) calls d.

(** The run a passing call of [log] leaves behind: the level as it was, the
    sink moved by the record's calls, the provider read once, the record
    added to the history. *)
Definition logged (first_arg : Arg) (args : list Arg) (r : Run) : Run :=
  let reading := getCoarseTickCount (m_systick (self r)) in
  let calls := record (fst reading) first_arg args in
  {| self := {| m_level := m_level (self r);
                m_derived := replay calls (m_derived (self r));
                m_systick := snd reading |};
     history := history r ++ calls |}.

(** The level named by the last [setLevel] of a sequence, else [current]. *)
Fixpoint last_setLevel (ops : list Operation) (current : LogLevel) : LogLevel :=
  match ops with
  | [] => current
  | CallLog _ :: rest => last_setLevel rest current
  | CallSetLevel level :: rest => last_setLevel rest level
  end.

End Engine.

Arguments Logger : clear implicits.
Arguments Run : clear implicits.

(** ** Programs over one logger *)

(** The characters a reader of a null-terminated string finds in an array:
    those before the first terminator.  An array without a terminator gives
    no string: the reader would run past its end. *)
Fixpoint c_string (cs : list ascii) : option (list ascii) :=
  match cs with
  | [] => None
  | c :: rest =>
      if Ascii.eqb c NUL then Some []
      else match c_string rest with
           | Some text => Some (c :: text)
           | None => None
           end
  end.

(** The text such a reader finds behind a handle, if any. *)
Definition text_of (h : InternedString) : option (list ascii) :=
  match object_contents (block (str h)) with
  | Some cs => c_string (skipn (Z.to_nat (offset (str h))) cs)
  | None => None
  end.

(** Where a sink stands in its protocol: no message open; the tick read and
    not yet passed on; a message just begun; a message with an append. *)
Inductive Phase : Type :=
| Idle
| Stamped (tick : N)
| Begun
| Filled.

(** One call seen from a phase; [None] when the call is out of place. *)
Definition phase_step (p : Phase) (c : Call) : option Phase :=
  match p, c with
  | Idle, GetCoarseTickCount t => Some (Stamped t)
  | Stamped t, StartMessage t' => if N.eqb t t' then Some Begun else None
  | Begun, AppendData _ _ => Some Filled
  | Begun, AppendString _ => Some Filled
  | Filled, AppendData _ _ => Some Filled
  | Filled, AppendString _ => Some Filled
  | Filled, FinishMessage => Some Idle
  | _, _ => None
  end.

(** The phase after a sequence of calls, oldest first. *)
Fixpoint phase_after (p : Phase) (h : list Call) : option Phase :=
  match h with
  | [] => Some p
  | c :: rest =>
      match phase_step p c with
      | Some p' => phase_after p' rest
      | None => None
      end
  end.

(** The ticks given to [startMessage], oldest first. *)
Fixpoint start_ticks (h : list Call) : list N :=
  match h with
  | [] => []
  | StartMessage t :: rest => t :: start_ticks rest
  | _ :: rest => start_ticks rest
  end.

(** The number of [log] calls of a sequence that pass the filter, the
    threshold being [threshold] when the sequence starts. *)
Fixpoint passing (ops : list Operation) (threshold : LogLevel) : nat :=
  match ops with
  | [] => 0
  | CallLog c :: rest =>
      (if level_lt (call_level c) threshold then 0 else 1) + passing rest threshold
  | CallSetLevel level :: rest => passing rest level
  end.

(** The four macros, as names. *)
Inductive Macro : Type := DebugMacro | InfoMacro | WarningMacro | ErrorMacro.

(** The [LogLevel] the body of each macro passes to [log]. *)
Definition macro_level (m : Macro) : LogLevel :=
  match m with
  | DebugMacro => DEBUG
  | InfoMacro => INFO
  | WarningMacro => WARNING
  | ErrorMacro => ERROR
  end.

(** One use of a macro: which macro, the format literal, the arguments. *)
Record MacroCall : Type := mkMacroCall {
  macro : Macro;
  macro_fmt : list ascii;
  macro_args : list Arg
}.

Section Programs.

Context {Derived SysTick : Type}.
Context {sink : Sink Derived} {ticks : TickProvider SysTick}.
Context {target : Target}.

(** The first [n] readings of a provider, and the provider after them. *)
Fixpoint readings (n : nat) (s : SysTick) : list N :=
  match n with
  | O => []
  | S n' => fst (getCoarseTickCount s) :: readings n' (snd (getCoarseTickCount s))
  end.

Fixpoint after_reads (n : nat) (s : SysTick) : SysTick :=
  match n with
  | O => s
  | S n' => after_reads n' (snd (getCoarseTickCount s))
  end.

(** What a sequence of operations should add to the history, and the
    provider it should leave: a record per passing [log], stamped with the
    next reading; nothing for a filtered [log] or a [setLevel]. *)
Fixpoint program_trace (ops : list Operation) (threshold : LogLevel) (s : SysTick)
  : list Call * SysTick :=
  match ops with
  | [] => ([], s)
  | CallLog c :: rest =>
      if level_lt (call_level c) threshold then program_trace rest threshold s
      else
        let reading := getCoarseTickCount s in
        let tail := program_trace rest threshold (snd reading) in
        (record (fst reading) (call_first c) (call_args c) ++ fst tail, snd tail)
  | CallSetLevel level :: rest => program_trace rest level s
  end.

(** The handle a macro use passes to [log]: its literal operator applied to
    its format. *)
Definition macro_handle (c : MacroCall) : InternedString :=
  match macro c with
  | DebugMacro => intern_debug (macro_fmt c)
  | InfoMacro => intern_info (macro_fmt c)
  | WarningMacro => intern_warning (macro_fmt c)
  | ErrorMacro => intern_error (macro_fmt c)
  end.

(** The call of [log] in the body of a macro use. *)
Definition as_log_call (c : MacroCall) : LogCall :=
  {| call_level := macro_level (macro c);
     call_first := ByValue (macro_handle c);
     call_args := macro_args c |}.

(** The number of arguments after the format, over a list of macro uses. *)
Fixpoint total_args (cs : list MacroCall) : nat :=
  match cs with
  | [] => 0
  | c :: rest => List.length (macro_args c) + total_args rest
  end.

(** The expansion of a macro use. *)
Definition expand (c : MacroCall) : M (Run Derived SysTick) unit :=
  match macro c with
  | DebugMacro => LOG_DEBUG (macro_fmt c) (macro_args c)
  | InfoMacro => LOG_INFO (macro_fmt c) (macro_args c)
  | WarningMacro => LOG_WARNING (macro_fmt c) (macro_args c)
  | ErrorMacro => LOG_ERROR (macro_fmt c) (macro_args c)
  end.

(** Macro uses, one after the other. *)
Fixpoint expand_all (cs : list MacroCall) : M (Run Derived SysTick) unit :=
  match cs with
  | [] => ret tt
  | c :: rest => expand c ;; expand_all rest
  end.

End Programs.

(** ** Concrete collaborators

    A small target, sink and tick provider on which the engine can be run. *)

Module Bench.

(** The byte of value [z mod 256]. *)
Definition byte_of_Z (z : Z) : Byte.byte :=
  match Byte.of_N (Z.to_N (z mod 256)) with
  | Some b => b
  | None => Byte.x00
  end.

(** The [n] low bytes of [z], least significant first. *)
Fixpoint little_endian (n : nat) (z : Z) : list Byte.byte :=
  match n with
  | O => []
  | S n' => byte_of_Z z :: little_endian n' (z / 256)
  end.

(** A 32-bit [int] argument. *)
Record int : Type := mkInt { int_value : Z }.

#[export] Instance int_object : ObjectType int := {
  sizeof := 4;
  object_representation i := little_endian 4 (int_value i)
}.

(** A link map for a 32-bit target: each section at its own base, an object
    of a section at the displacement given by the length of its pack. *)
Definition section_base (t : InternTemplate) : Z :=
  match t with
  | InternedDebugString => 0x08010000
  | InternedInfoString => 0x08020000
  | InternedWarningString => 0x08030000
  | InternedErrorString => 0x08040000
  end.

Definition address (p : Pointer) : Z :=
  match block p with
  | StaticString t N => section_base t + Z.of_nat (List.length N) + offset p
  | OtherObject id => 0x20000000 + Z.pos id + offset p
  end.

#[export] Instance ilp32 : Target := {
  sizeof_pointer := 4;
  pointer_representation p := little_endian 4 (address p)
}.

(** A sink that assembles each record as a byte string and keeps the sealed
    records, oldest first. *)
Record Buffer : Type := mkBuffer {
  current : list Byte.byte;
  sealed : list (list Byte.byte)
}.

Definition empty_buffer : Buffer := {| current := []; sealed := [] |}.

(** The characters of a string, up to the terminator. *)
Fixpoint until_NUL (cs : list ascii) : list Byte.byte :=
  match cs with
  | [] => []
  | c :: rest =>
      if Ascii.eqb c NUL then [] else byte_of_ascii c :: until_NUL rest
  end.

(** The other objects of the bench: object 1 is the string literal
    ["abc"], object 2 a [char] array that holds ["abc"]; the rest are empty
    strings. *)
Definition contents_at (o : Object) : list ascii :=
  match o with
  | StaticString _ N => N
  | OtherObject 1 => list_ascii_of_string "abc" ++ [NUL]
  | OtherObject 2 => list_ascii_of_string "abc" ++ [NUL]
  | OtherObject _ => [NUL]
  end.

Definition text_at (p : Pointer) : list Byte.byte :=
  until_NUL (skipn (Z.to_nat (offset p)) (contents_at (block p))).

#[export] Instance Buffer_sink : Sink Buffer := {
  startMessage tick b :=
    {| current := little_endian 4 (Z.of_N tick); sealed := sealed b |};
  appendData data length b :=
    {| current := current b ++ firstn (N.to_nat length) data;
       sealed := sealed b |};
  appendString text b :=
    {| current := current b ++ text_at text ++ [Byte.x00];
       sealed := sealed b |};
  finishMessage b :=
    {| current := []; sealed := sealed b ++ [current b] |}
}.

(** A free-running 32-bit counter: a read returns the count, and the next
    read finds it one tick further. *)
Record Counter : Type := mkCounter { ticks_now : N }.

#[export] Instance Counter_ticks : TickProvider Counter := {
  getCoarseTickCount c :=
    (ticks_now c, {| ticks_now := (ticks_now c + 1) mod 2 ^ 32 |})
}.

(** A fresh logger over an empty buffer, the counter at tick 100. *)
Definition fresh : Run Buffer Counter :=
  start empty_buffer {| ticks_now := 100 |}.

(** The format literals of the scenarios. *)
Definition fmt_value : list ascii := list_ascii_of_string "value=%d".
Definition fmt_id : list ascii := list_ascii_of_string "id=%s".
Definition fmt_x : list ascii := list_ascii_of_string "x".
Definition fmt_y : list ascii := list_ascii_of_string "y".

(** The string literal ["abc"], an object of its own. *)
Definition abc : Pointer := decay (OtherObject 1).

(** [char buf[] = "abc"], after array-to-pointer conversion. *)
Definition buf : Pointer := decay (OtherObject 2).

(** The fresh logger after [setLevel(WARNING)], and after [setLevel(OFF)]. *)
Definition at_warning : Run Buffer Counter := exec (setLevel WARNING) fresh.
Definition at_off : Run Buffer Counter := exec (setLevel OFF) fresh.

(** The argument [42] of type [int]. *)
Definition forty_two : Arg := ByValue {| int_value := 42 |}.

End Bench.

(** * Properties *)

(** ** The severity order *)

Lemma level_lt_irrefl (l : LogLevel) : level_lt l l = false.
Proof. unfold level_lt. apply Z.ltb_irrefl. Qed.

Lemma level_lt_DEBUG_r (l : LogLevel) : level_lt l DEBUG = false.
Proof. destruct l; reflexivity. Qed.

Lemma level_lt_OFF_l (l : LogLevel) : level_lt OFF l = false.
Proof. destruct l; reflexivity. Qed.

Lemma level_lt_OFF_r (l : LogLevel) : l <> OFF -> level_lt l OFF = true.
Proof. destruct l; intros H; try reflexivity. contradiction. Qed.

Lemma level_lt_spec (a b : LogLevel) :
  level_lt a b = true <-> (underlying a < underlying b)%Z.
Proof. unfold level_lt. apply Z.ltb_lt. Qed.

(** ** Histories *)

Lemma count_app (p : Call -> bool) (h1 h2 : list Call) :
  count p (h1 ++ h2) = count p h1 + count p h2.
Proof. unfold count. rewrite filter_app, length_app. reflexivity. Qed.

Lemma count_cons (p : Call -> bool) (c : Call) (h : list Call) :
  count p (c :: h) = (if p c then 1 else 0) + count p h.
Proof. unfold count. simpl. destruct (p c); reflexivity. Qed.

Lemma count_appends (p : Call -> bool) (h : list Call) :
  (forall c, is_append c = true -> p c = false) ->
  forallb is_append h = true -> count p h = 0.
Proof.
  intros Hp. induction h as [| c h IH]; intros Hall; [reflexivity |].
  simpl in Hall. apply andb_true_iff in Hall as [Hc Hh].
  unfold count in *. simpl. rewrite (Hp c Hc). auto.
Qed.

Lemma call_of_arg_is_append (a : Arg) : is_append (call_of_arg a) = true.
Proof. destruct a; reflexivity. Qed.

Lemma appends_of_args (args : list Arg) :
  forallb is_append (map call_of_arg args) = true.
Proof.
  induction args as [| a args IH]; [reflexivity |].
  simpl. rewrite call_of_arg_is_append. exact IH.
Qed.

Section EngineFacts.

Context {Derived SysTick : Type}.
Context {sink : Sink Derived} {ticks : TickProvider SysTick}.

Lemma replay_app (h1 h2 : list Call) (d : Derived) :
  replay (h1 ++ h2) d = replay h2 (replay h1 d).
Proof. unfold replay. apply fold_left_app. Qed.

Lemma sendArgument_run (a : Arg) (r : Run Derived SysTick) :
  sendArgument a r =
  (tt, {| self := {| m_level := m_level (self r);
                     m_derived := replay_call (call_of_arg a) (m_derived (self r));
                     m_systick := m_systick (self r) |};
          history := history r ++ [call_of_arg a] |}).
Proof. destruct a; reflexivity. Qed.

Lemma sendRemainingArguments_run (args : list Arg) :
  forall (first_arg : Arg) (r : Run Derived SysTick),
    sendRemainingArguments first_arg args r =
    (tt, {| self := {| m_level := m_level (self r);
                       m_derived := replay (map call_of_arg (first_arg :: args))
                                           (m_derived (self r));
                       m_systick := m_systick (self r) |};
            history := history r ++ map call_of_arg (first_arg :: args) |}).
Proof.
  induction args as [| next rest IH]; intros first_arg r.
  - simpl. apply sendArgument_run.
  - cbn [sendRemainingArguments]. unfold bind.
    rewrite sendArgument_run. cbn [fst snd].
    rewrite IH. cbn [self history m_level m_derived m_systick].
    rewrite <- app_assoc. reflexivity.
Qed.

Lemma log_filtered (level : LogLevel) (first_arg : Arg) (args : list Arg) (r : Run Derived SysTick) :
  level_lt level (m_level (self r)) = true ->
  log level first_arg args r = (tt, r).
Proof.
  intros Hlt. unfold log, bind, get_level. cbn [fst snd].
  rewrite Hlt. reflexivity.
Qed.

Lemma log_passed (level : LogLevel) (first_arg : Arg) (args : list Arg) (r : Run Derived SysTick) :
  level_lt level (m_level (self r)) = false ->
  log level first_arg args r = (tt, logged first_arg args r).
Proof.
  intros Hlt. unfold log, bind at 1, get_level. cbn [fst snd].
  rewrite Hlt. unfold logged, record, bind, systick_getCoarseTickCount.
  destruct (getCoarseTickCount (m_systick (self r))) as [tick systick'].
  cbn [fst snd]. unfold derived_startMessage, derived_finishMessage, derived_call.
  cbn [fst snd self history m_level m_derived m_systick].
  rewrite sendRemainingArguments_run.
  cbn [fst snd self history m_level m_derived m_systick].
  f_equal. f_equal.
  - f_equal. rewrite replay_app. cbn [app]. rewrite replay_app. reflexivity.
  - rewrite <- !app_assoc. reflexivity.
Qed.

Lemma log_run (level : LogLevel) (first_arg : Arg) (args : list Arg) (r : Run Derived SysTick) :
  log level first_arg args r =
  (tt, if level_lt level (m_level (self r)) then r else logged first_arg args r).
Proof.
  destruct (level_lt level (m_level (self r))) eqn:Hlt.
  - apply log_filtered, Hlt.
  - apply log_passed, Hlt.
Qed.

Lemma log_keeps_level (level : LogLevel) (first_arg : Arg) (args : list Arg) (r : Run Derived SysTick) :
  m_level (self (exec (log level first_arg args) r)) = m_level (self r).
Proof.
  unfold exec. rewrite log_run. cbn [snd].
  destruct (level_lt level (m_level (self r))); reflexivity.
Qed.

Lemma logs_keep_level (calls : list LogCall) :
  forall r : Run Derived SysTick,
    m_level (self (exec (perform_all (map CallLog calls)) r)) = m_level (self r).
Proof.
  induction calls as [| c calls IH]; intros r; [reflexivity |].
  cbn [map perform_all]. unfold exec, bind in *. rewrite IH.
  cbn [perform]. apply log_keeps_level.
Qed.

Lemma perform_all_level (ops : list Operation) :
  forall r : Run Derived SysTick,
    m_level (self (exec (perform_all ops) r)) = last_setLevel ops (m_level (self r)).
Proof.
  induction ops as [| op ops IH]; intros r; [reflexivity |].
  cbn [perform_all]. unfold exec, bind in *. rewrite IH.
  destruct op as [c | level]; cbn [perform last_setLevel].
  - f_equal. apply log_keeps_level.
  - reflexivity.
Qed.

End EngineFacts.

(** ** Interning *)

Lemma intern_storage (severity : LogLevel) (fmt : list ascii) (h : InternedString) :
  intern severity fmt = Some h ->
  exists t, h = {| str := decay (StaticString t (fmt ++ [NUL])) |}
            /\ Some (section_of t) = designated_section severity.
Proof.
  destruct severity; cbn [intern]; intros Hh; try discriminate;
    injection Hh as <-; eexists; split; reflexivity.
Qed.

(** Distinct literals get distinct handles: the handle identifies the text. *)
Lemma intern_injective (severity : LogLevel) (fmt1 fmt2 : list ascii) (h : InternedString) :
  intern severity fmt1 = Some h -> intern severity fmt2 = Some h -> fmt1 = fmt2.
Proof.
  intros H1 H2.
  destruct (intern_storage _ _ H1) as [t1 [E1 _]].
  destruct (intern_storage _ _ H2) as [t2 [E2 _]].
  rewrite E1 in E2. injection E2 as _ E. apply app_inv_tail in E. exact E.
Qed.

Lemma designated_section_injective (s1 s2 : LogLevel) (name : string) :
  designated_section s1 = Some name -> designated_section s2 = Some name -> s1 = s2.
Proof.
  destruct s1, s2; cbn [designated_section]; intros H1 H2;
    try reflexivity; try discriminate;
    rewrite <- H2 in H1; discriminate.
Qed.

(** X15. The same literal text interned under two different severities
    yields two different handles, into two different objects; each object is
    the member of its own severity's class template, whose declaration asks
    for the section that carries that severity's name, and the two section
    names differ. *)
Theorem intern_other_severity_other_handle
  (s1 s2 : LogLevel) (fmt : list ascii) (h1 h2 : InternedString) :
  s1 <> s2 ->
  intern s1 fmt = Some h1 ->
  intern s2 fmt = Some h2 ->
  h1 <> h2
  /\ block (str h1) <> block (str h2)
  /\ declared_section (block (str h1)) = designated_section s1
  /\ declared_section (block (str h2)) = designated_section s2
  /\ designated_section s1 <> designated_section s2.
Proof.
  intros Hne H1 H2.
  destruct (intern_storage _ _ H1) as [t1 [-> S1]].
  destruct (intern_storage _ _ H2) as [t2 [-> S2]].
  cbn [str block decay declared_section].
  assert (Hsec : designated_section s1 <> designated_section s2).
  { intros E. rewrite <- S1 in E. symmetry in E.
    apply Hne. eapply designated_section_injective; eauto. }
  assert (Ht : t1 <> t2).
  { intros E. apply Hsec. rewrite <- S1, <- S2, E. reflexivity. }
  repeat split; try assumption.
  - intros E. apply Ht. unfold decay in E. congruence.
  - intros E. apply Ht. congruence.
Qed.

(** ** The engine *)

Section EngineClaims.

Context {Derived SysTick : Type}.
Context {sink : Sink Derived} {ticks : TickProvider SysTick}.

(** C1. Whatever the state of the logger, a call of [log] at a severity
    strictly below the current threshold does nothing: the run it returns is
    the run it was given, so the level, the sink and the tick provider are
    as before and the history has gained no call, neither a tick read nor a
    [startMessage], [appendData], [appendString] or [finishMessage]. *)
Theorem log_below_threshold_is_noop
  (r : Run Derived SysTick) (level : LogLevel) (first_arg : Arg) (args : list Arg) :
  level_lt level (m_level (self r)) = true ->
  log level first_arg args r = (tt, r)
  /\ history (exec (log level first_arg args) r) = history r
  /\ self (exec (log level first_arg args) r) = self r.
Proof.
  intros Hlt. unfold exec. rewrite (log_filtered _ _ _ _ Hlt).
  repeat split.
Qed.

(** X14. In a call of [log] that passes the filter, the appends that follow
    [startMessage] are: the interned-format handle through [appendData], with
    the bytes of its pointer and the size of [InternedString]; then one call
    per argument, in call order, [appendString] for an argument of static
    type [const char*] and [appendData] with the object bytes and
    [sizeof(T)] for an argument of any other type [T].  Nothing is dropped, reordered or merged: the appends are
    as many as the handle and the arguments, the call at position [i + 1] is
    the one of argument [i], and [finishMessage] follows the last of them. *)
Theorem log_appends_in_call_order `{Target}
  (r : Run Derived SysTick) (level : LogLevel) (fmt : InternedString) (args : list Arg) :
  level_lt level (m_level (self r)) = false ->
  let tick := fst (getCoarseTickCount (m_systick (self r))) in
  let appends :=
    AppendData (pointer_representation (str fmt)) sizeof_pointer
      :: map call_of_arg args in
  let r' := exec (log level (ByValue fmt) args) r in
  history r' =
    history r ++ [GetCoarseTickCount tick; StartMessage tick] ++ appends ++ [FinishMessage]
  /\ m_derived (self r') =
       finishMessage (replay appends (startMessage tick (m_derived (self r))))
  /\ List.length appends = S (List.length args)
  /\ (forall i a, nth_error args i = Some a ->
                  nth_error appends (S i) = Some (call_of_arg a))
  /\ (forall (T : Type) (OT : ObjectType T) (argument : T),
        call_of_arg (ByValue argument) =
        AppendData (object_representation argument) (sizeof T))
  /\ (forall argument : Pointer,
        call_of_arg (ConstCharPtr argument) = AppendString argument).
Proof.
  intros Hlt tick appends r'. subst r'. unfold exec.
  rewrite (log_passed _ _ _ _ Hlt). cbn [snd logged self history m_derived].
  fold tick. unfold record. cbn [map call_of_arg].
  cbn [object_representation sizeof InternedString_object str].
  fold appends.
  split; [reflexivity |].
  split.
  { change ([GetCoarseTickCount tick; StartMessage tick] ++ appends ++ [FinishMessage])
      with ([GetCoarseTickCount tick; StartMessage tick] ++ (appends ++ [FinishMessage])).
    rewrite replay_app, replay_app. reflexivity. }
  split.
  { subst appends. cbn [List.length]. rewrite length_map. reflexivity. }
  split.
  { intros i a Hi. subst appends. cbn [nth_error].
    rewrite nth_error_map, Hi. reflexivity. }
  split; reflexivity.
Qed.

(** C3. A call of [log] that passes the filter makes exactly one record:
    the tick provider is read once, before anything else, the value read is
    the one given to [startMessage], then come appends only, then the one
    [finishMessage].  The calls added hold one tick read, one [startMessage]
    and one [finishMessage], so no span opens inside another. *)
Theorem log_one_record
  (r : Run Derived SysTick) (level : LogLevel) (first_arg : Arg) (args : list Arg) :
  level_lt level (m_level (self r)) = false ->
  exists (tick : N) (appends : list Call),
    let r' := exec (log level first_arg args) r in
    let added := GetCoarseTickCount tick :: StartMessage tick :: appends ++ [FinishMessage] in
    getCoarseTickCount (m_systick (self r)) = (tick, m_systick (self r'))
    /\ history r' = history r ++ added
    /\ forallb is_append appends = true
    /\ count is_tick_read added = 1
    /\ count is_start added = 1
    /\ count is_finish added = 1
    /\ m_derived (self r') = replay added (m_derived (self r)).
Proof.
  intros Hlt.
  exists (fst (getCoarseTickCount (m_systick (self r)))),
         (map call_of_arg (first_arg :: args)).
  cbv zeta. unfold exec. rewrite (log_passed _ _ _ _ Hlt).
  cbn [snd logged self history m_systick m_derived]. unfold record.
  pose proof (appends_of_args (first_arg :: args)) as Happ.
  split; [apply surjective_pairing |].
  split; [reflexivity |].
  split; [exact Happ |].
  set (appends := map call_of_arg (first_arg :: args)) in *.
  rewrite !count_cons, !count_app.
  rewrite (count_appends is_tick_read appends), (count_appends is_start appends),
    (count_appends is_finish appends);
    try exact Happ; try (intros []; simpl; congruence).
  repeat split.
Qed.

(** C6, as the code has it.  After [setLevel(OFF)], and after any number of
    further calls of [log] at any severities, a call of [log] at a severity
    other than [OFF] does nothing: no tick read, no sink call, the run
    unchanged; the threshold is still [OFF].  (A call at severity [OFF]
    itself is not filtered.) *)
Theorem log_after_setLevel_OFF_is_noop
  (r : Run Derived SysTick) (calls : list LogCall)
  (level : LogLevel) (first_arg : Arg) (args : list Arg) :
  level <> OFF ->
  let r' := exec (perform_all (map CallLog calls)) (exec (setLevel OFF) r) in
  m_level (self r') = OFF
  /\ log level first_arg args r' = (tt, r')
  /\ history (exec (log level first_arg args) r') = history r'.
Proof.
  intros Hlevel r'.
  assert (Hoff : m_level (self r') = OFF).
  { subst r'. rewrite logs_keep_level. reflexivity. }
  assert (Hnoop : log level first_arg args r' = (tt, r')).
  { apply log_filtered. rewrite Hoff. apply level_lt_OFF_r, Hlevel. }
  unfold exec at 1. rewrite Hnoop. repeat split. exact Hoff.
Qed.

(** C7. [setLevel] stores its argument as the threshold, whatever the
    threshold was before, and touches nothing else; after it, and after any
    number of calls of [log], the threshold is still the new one and a call
    of [log] is filtered against it: a no-op when its severity is below the
    new threshold, a full record otherwise. *)
Theorem setLevel_replaces_threshold
  (r : Run Derived SysTick) (newThreshold : LogLevel) (calls : list LogCall)
  (level : LogLevel) (first_arg : Arg) (args : list Arg) :
  let r1 := exec (setLevel newThreshold) r in
  let r2 := exec (perform_all (map CallLog calls)) r1 in
  m_level (self r1) = newThreshold
  /\ m_derived (self r1) = m_derived (self r)
  /\ m_systick (self r1) = m_systick (self r)
  /\ history r1 = history r
  /\ m_level (self r2) = newThreshold
  /\ log level first_arg args r2 =
       (tt, if level_lt level newThreshold then r2 else logged first_arg args r2).
Proof.
  intros r1 r2.
  assert (H2 : m_level (self r2) = newThreshold).
  { subst r2. rewrite logs_keep_level. reflexivity. }
  repeat split; try assumption.
  rewrite log_run, H2. reflexivity.
Qed.

(** C8. A newly constructed logger has threshold [DEBUG]; as long as
    [setLevel] is not called, that is after any number of calls of [log], a
    call of [log] at any severity (the four that are not [OFF], and [OFF]
    too) passes the filter and makes a full record: tick read,
    [startMessage], the appends, [finishMessage]. *)
Theorem new_logger_logs_everything
  (derived : Derived) (systick : SysTick) (calls : list LogCall)
  (level : LogLevel) (first_arg : Arg) (args : list Arg) :
  let r := exec (perform_all (map CallLog calls)) (start derived systick) in
  m_level (new_Logger derived systick) = DEBUG
  /\ m_level (self r) = DEBUG
  /\ level_lt level (m_level (self r)) = false
  /\ log level first_arg args r = (tt, logged first_arg args r)
  /\ history (exec (log level first_arg args) r) =
       history r
         ++ record (fst (getCoarseTickCount (m_systick (self r)))) first_arg args.
Proof.
  intros r.
  assert (Hd : m_level (self r) = DEBUG).
  { subst r. rewrite logs_keep_level. reflexivity. }
  assert (Hlt : level_lt level (m_level (self r)) = false).
  { rewrite Hd. apply level_lt_DEBUG_r. }
  unfold exec at 1. rewrite (log_passed _ _ _ _ Hlt).
  repeat split; assumption.
Qed.

(** C9. A call of [log] at severity [OFF] is never filtered: whatever the
    threshold, [OFF] included, [OFF < threshold] is false and the call makes
    a full record.  No literal operator interns for [OFF]. *)
Theorem log_OFF_is_never_filtered
  (r : Run Derived SysTick) (first_arg : Arg) (args : list Arg) :
  level_lt OFF (m_level (self r)) = false
  /\ log OFF first_arg args r = (tt, logged first_arg args r)
  /\ history (exec (log OFF first_arg args) r) =
       history r
         ++ record (fst (getCoarseTickCount (m_systick (self r)))) first_arg args
  /\ (forall fmt, intern OFF fmt = None).
Proof.
  pose proof (level_lt_OFF_l (m_level (self r))) as Hlt.
  unfold exec. rewrite (log_passed _ _ _ _ Hlt).
  repeat split. exact Hlt.
Qed.

(** C10. A call of [log] leaves the threshold as it found it, filtered or
    not; so after any sequence of [log] and [setLevel] calls the threshold,
    which is what the next call observes, is the argument of the last
    [setLevel] of the sequence, or the threshold the sequence started from
    when it holds none: [DEBUG] for a newly constructed logger. *)
Theorem threshold_is_last_setLevel
  (r : Run Derived SysTick) (derived : Derived) (systick : SysTick)
  (ops : list Operation) (level : LogLevel) (first_arg : Arg) (args : list Arg) :
  m_level (self (exec (log level first_arg args) r)) = m_level (self r)
  /\ m_level (self (exec (perform_all ops) r)) = last_setLevel ops (m_level (self r))
  /\ (let r' := exec (perform_all ops) (start derived systick) in
      m_level (self r') = last_setLevel ops DEBUG
      /\ log level first_arg args r' =
           (tt, if level_lt level (last_setLevel ops DEBUG) then r'
                else logged first_arg args r')).
Proof.
  split; [apply log_keeps_level |].
  split; [apply perform_all_level |].
  cbv zeta. rewrite log_run, perform_all_level. split; reflexivity.
Qed.

End EngineClaims.

(** ** Instances on the bench *)

Import Bench.

(** Threshold [WARNING], a call at [DEBUG]. *)
Lemma log_below_threshold_is_noop_witness :
  level_lt DEBUG (m_level (self at_warning)) = true
  /\ log DEBUG (ByValue (intern_debug fmt_x)) [] at_warning = (tt, at_warning).
Proof.
  split; [reflexivity |].
  apply (log_below_threshold_is_noop at_warning DEBUG
           (ByValue (intern_debug fmt_x)) []).
  reflexivity.
Defined.

(** Default threshold, a call at [INFO] with an [int] and a string. *)
Lemma log_appends_in_call_order_witness :
  level_lt INFO (m_level (self fresh)) = false
  /\ history (exec (log INFO (ByValue (intern_info fmt_value))
                        [forty_two; ConstCharPtr abc]) fresh) =
     [GetCoarseTickCount 100; StartMessage 100;
      AppendData [Byte.x09; Byte.x00; Byte.x02; Byte.x08] 4;
      AppendData [Byte.x2a; Byte.x00; Byte.x00; Byte.x00] 4;
      AppendString abc;
      FinishMessage].
Proof.
  split; [reflexivity |].
  exact (proj1 (log_appends_in_call_order fresh INFO (intern_info fmt_value)
                  [forty_two; ConstCharPtr abc] eq_refl)).
Defined.

(** C2, where the code departs from it.  [char buf[] = "abc"] passed to
    [LOG_WARNING(logger, "id=%s", buf)] has static type [char*]: the
    template overload of [sendArgument] is selected and the four bytes of
    the pointer go out through [appendData]; there is no [appendString]
    call and the characters never reach the sink.  The same text passed as
    [const char*] goes through [appendString]. *)
Theorem log_char_buffer_goes_out_as_pointer_bytes :
  history (exec (LOG_WARNING fmt_id [text_arg (MutableText buf)]) fresh) =
    [GetCoarseTickCount 100; StartMessage 100;
     AppendData (pointer_representation (str (intern_warning fmt_id))) 4;
     AppendData (pointer_representation buf) 4;
     FinishMessage]
  /\ sealed (m_derived (self (exec (LOG_WARNING fmt_id [text_arg (MutableText buf)]) fresh))) =
     [[Byte.x64; Byte.x00; Byte.x00; Byte.x00;
       Byte.x06; Byte.x00; Byte.x03; Byte.x08;
       Byte.x02; Byte.x00; Byte.x00; Byte.x20]]
  /\ history (exec (LOG_WARNING fmt_id [text_arg (ConstText abc)]) fresh) =
    [GetCoarseTickCount 100; StartMessage 100;
     AppendData (pointer_representation (str (intern_warning fmt_id))) 4;
     AppendString abc;
     FinishMessage].
Proof. repeat split. Qed.

(** Threshold [WARNING], a call at [ERROR]. *)
Lemma log_one_record_witness :
  level_lt ERROR (m_level (self at_warning)) = false
  /\ exists (tick : N) (appends : list Call),
       let r' := exec (log ERROR (ByValue (intern_error fmt_y)) [forty_two]) at_warning in
       let added :=
         GetCoarseTickCount tick :: StartMessage tick :: appends ++ [FinishMessage] in
       getCoarseTickCount (m_systick (self at_warning)) = (tick, m_systick (self r'))
       /\ history r' = history at_warning ++ added
       /\ forallb is_append appends = true
       /\ count is_tick_read added = 1
       /\ count is_start added = 1
       /\ count is_finish added = 1
       /\ m_derived (self r') = replay added (m_derived (self at_warning)).
Proof.
  split; [reflexivity |].
  apply (log_one_record at_warning ERROR (ByValue (intern_error fmt_y)) [forty_two]).
  reflexivity.
Defined.

(** The literal ["x"] at [DEBUG] and at [ERROR]. *)
Lemma intern_other_severity_other_handle_witness :
  DEBUG <> ERROR
  /\ intern DEBUG fmt_x = Some (intern_debug fmt_x)
  /\ intern ERROR fmt_x = Some (intern_error fmt_x)
  /\ intern_debug fmt_x <> intern_error fmt_x
  /\ declared_section (block (str (intern_debug fmt_x))) = Some ".interned_strings.debug"%string
  /\ declared_section (block (str (intern_error fmt_x))) = Some ".interned_strings.error"%string.
Proof.
  assert (Hne : DEBUG <> ERROR) by discriminate.
  split; [exact Hne |].
  split; [reflexivity |].
  split; [reflexivity |].
  pose proof (@intern_other_severity_other_handle DEBUG ERROR fmt_x
                (intern_debug fmt_x) (intern_error fmt_x) Hne eq_refl eq_refl) as [Hh [_ [H1 [H2 _]]]].
  split; [exact Hh |].
  split; [exact H1 | exact H2].
Defined.

(** [setLevel(OFF)], a call at [DEBUG], then a call at [ERROR]. *)
Lemma log_after_setLevel_OFF_is_noop_witness :
  ERROR <> OFF
  /\ log ERROR (ByValue (intern_error fmt_y)) []
         (exec (perform_all (map CallLog [mkLogCall DEBUG (ByValue (intern_debug fmt_x)) []]))
               (exec (setLevel OFF) fresh)) =
     (tt, exec (setLevel OFF) fresh).
Proof.
  assert (Hne : ERROR <> OFF) by discriminate.
  split; [exact Hne |].
  exact (proj1 (proj2 (log_after_setLevel_OFF_is_noop fresh
                         [mkLogCall DEBUG (ByValue (intern_debug fmt_x)) []]
                         (ByValue (intern_error fmt_y)) [] Hne))).
Defined.

(** C6 as stated fails at severity [OFF]: after [setLevel(OFF)] on the fresh
    bench logger, [log(OFF, handle)] reads the tick and writes a record. *)
Lemma log_OFF_after_setLevel_OFF_is_logged :
  m_level (self at_off) = OFF
  /\ history at_off = []
  /\ history (exec (log OFF (ByValue (intern_error fmt_y)) []) at_off) =
     [GetCoarseTickCount 100; StartMessage 100;
      AppendData [Byte.x02; Byte.x00; Byte.x04; Byte.x08] 4;
      FinishMessage]
  /\ log OFF (ByValue (intern_error fmt_y)) [] at_off <> (tt, at_off).
Proof.
  split; [reflexivity |].
  split; [reflexivity |].
  split; [reflexivity |].
  intros E. apply (f_equal (fun x => history (snd x))) in E.
  vm_compute in E. discriminate E.
Qed.

(** ** Scenarios *)

(** Default threshold, [LOG_INFO(logger, "value=%d", 42)]: one record, the
    tick, the handle of the format in the info section, the four bytes of
    [42]. *)
Example scenario_info_value :
  history (exec (LOG_INFO fmt_value [forty_two]) fresh) =
    [GetCoarseTickCount 100; StartMessage 100;
     AppendData (pointer_representation (str (intern_info fmt_value))) 4;
     AppendData [Byte.x2a; Byte.x00; Byte.x00; Byte.x00] 4;
     FinishMessage]
  /\ sealed (m_derived (self (exec (LOG_INFO fmt_value [forty_two]) fresh))) =
     [[Byte.x64; Byte.x00; Byte.x00; Byte.x00;
       Byte.x09; Byte.x00; Byte.x02; Byte.x08;
       Byte.x2a; Byte.x00; Byte.x00; Byte.x00]].
Proof. split; reflexivity. Qed.

(** Threshold [WARNING], [LOG_DEBUG(logger, "x")] then
    [LOG_ERROR(logger, "y")]: nothing for the first, one record for the
    second. *)
Example scenario_warning_threshold :
  exec (LOG_DEBUG fmt_x []) at_warning = at_warning
  /\ history (exec (LOG_DEBUG fmt_x [] ;; LOG_ERROR fmt_y []) at_warning) =
     [GetCoarseTickCount 100; StartMessage 100;
      AppendData (pointer_representation (str (intern_error fmt_y))) 4;
      FinishMessage].
Proof. split; reflexivity. Qed.

(** [LOG_WARNING(logger, "id=%s", "abc")]: the string goes through
    [appendString], not through [appendData]. *)
Example scenario_text_argument :
  history (exec (LOG_WARNING fmt_id [ConstCharPtr abc]) fresh) =
    [GetCoarseTickCount 100; StartMessage 100;
     AppendData (pointer_representation (str (intern_warning fmt_id))) 4;
     AppendString abc;
     FinishMessage]
  /\ sealed (m_derived (self (exec (LOG_WARNING fmt_id [ConstCharPtr abc]) fresh))) =
     [[Byte.x64; Byte.x00; Byte.x00; Byte.x00;
       Byte.x06; Byte.x00; Byte.x03; Byte.x08;
       Byte.x61; Byte.x62; Byte.x63; Byte.x00]].
Proof. split; reflexivity. Qed.

(** ** Programs: sequences of calls *)

Lemma phase_after_app (h1 h2 : list Call) :
  forall (p q : Phase),
    phase_after p h1 = Some q -> phase_after p (h1 ++ h2) = phase_after q h2.
Proof.
  induction h1 as [| c h1 IH]; intros p q Hq; simpl in *.
  - injection Hq as <-. reflexivity.
  - destruct (phase_step p c) as [p' |]; [apply IH, Hq | discriminate].
Qed.

Lemma phase_after_appends (args : list Arg) :
  phase_after Filled (map call_of_arg args) = Some Filled.
Proof.
  induction args as [| a args IH]; [reflexivity |].
  destruct a; simpl; exact IH.
Qed.

Lemma phase_after_record (tick : N) (first_arg : Arg) (args : list Arg) :
  phase_after Idle (record tick first_arg args) = Some Idle.
Proof.
  unfold record. cbn [app phase_after phase_step]. rewrite N.eqb_refl.
  cbn [map]. rewrite <- app_comm_cons.
  assert (Hfirst : phase_step Begun (call_of_arg first_arg) = Some Filled)
    by (destruct first_arg; reflexivity).
  cbn [phase_after]. rewrite Hfirst.
  rewrite (phase_after_app _ [FinishMessage] _ (phase_after_appends args)).
  reflexivity.
Qed.

Lemma start_ticks_app (h1 h2 : list Call) :
  start_ticks (h1 ++ h2) = start_ticks h1 ++ start_ticks h2.
Proof.
  induction h1 as [| c h1 IH]; [reflexivity |].
  destruct c; simpl; rewrite IH; reflexivity.
Qed.

Lemma start_ticks_appends (h : list Call) :
  forallb is_append h = true -> start_ticks h = [].
Proof.
  induction h as [| c h IH]; [reflexivity |].
  destruct c; simpl; intros H; try discriminate; apply IH, H.
Qed.

Lemma start_ticks_record (tick : N) (first_arg : Arg) (args : list Arg) :
  start_ticks (record tick first_arg args) = [tick].
Proof.
  unfold record. cbn [app start_ticks]. f_equal.
  rewrite start_ticks_app, (start_ticks_appends _ (appends_of_args _)).
  reflexivity.
Qed.

Lemma count_record (tick : N) (first_arg : Arg) (args : list Arg) :
  count is_tick_read (record tick first_arg args) = 1
  /\ count is_start (record tick first_arg args) = 1
  /\ count is_finish (record tick first_arg args) = 1
  /\ count is_append (record tick first_arg args) = S (List.length args).
Proof.
  unfold record. cbn [app]. rewrite !count_cons, !count_app.
  pose proof (appends_of_args (first_arg :: args)) as Happ.
  rewrite (count_appends is_tick_read _), (count_appends is_start _),
    (count_appends is_finish _);
    try exact Happ; try (intros []; simpl; congruence).
  repeat split.
  unfold count. cbn [is_append filter List.length Nat.add].
  rewrite (forallb_filter_id _ _ Happ).
  rewrite length_map. cbn [List.length]. lia.
Qed.

Section ProgramFacts.

Context {Derived SysTick : Type}.
Context {sink : Sink Derived} {ticks : TickProvider SysTick}.

Lemma perform_all_run (ops : list Operation) :
  forall r : Run Derived SysTick,
    let out := program_trace ops (m_level (self r)) (m_systick (self r)) in
    perform_all ops r =
    (tt, {| self := {| m_level := last_setLevel ops (m_level (self r));
                       m_derived := replay (fst out) (m_derived (self r));
                       m_systick := snd out |};
            history := history r ++ fst out |}).
Proof.
  induction ops as [| op ops IH]; intros r; cbv zeta.
  - destruct r as [[l d s] h]. cbn. rewrite app_nil_r. reflexivity.
  - cbn [perform_all]. unfold bind. destruct op as [c | level].
    + cbn [perform]. unfold do_log. rewrite log_run. cbn [fst snd].
      cbn [program_trace last_setLevel].
      destruct (level_lt (call_level c) (m_level (self r))).
      * apply IH.
      * rewrite IH. unfold logged.
        cbn [fst snd self history m_level m_derived m_systick].
        rewrite replay_app, <- app_assoc. reflexivity.
    + cbn [perform setLevel fst snd]. rewrite IH. reflexivity.
Qed.

Lemma perform_all_app (ops1 ops2 : list Operation) (r : Run Derived SysTick) :
  perform_all (ops1 ++ ops2) r = perform_all ops2 (exec (perform_all ops1) r).
Proof.
  revert r. induction ops1 as [| op ops1 IH]; intros r; [reflexivity |].
  cbn [app perform_all]. unfold bind, exec in *. rewrite IH. reflexivity.
Qed.

End ProgramFacts.

Section ProgramTraces.

Context {Derived SysTick : Type}.
Context {sink : Sink Derived} {ticks : TickProvider SysTick}.

Lemma program_trace_phase (ops : list Operation) :
  forall (threshold : LogLevel) (s : SysTick),
    phase_after Idle (fst (program_trace ops threshold s)) = Some Idle.
Proof.
  induction ops as [| op ops IH]; intros threshold s; [reflexivity |].
  destruct op as [c | level]; cbn [program_trace]; [| apply IH].
  destruct (level_lt (call_level c) threshold); [apply IH |].
  cbn [fst].
  rewrite (phase_after_app _ _ _ (phase_after_record _ _ _)). apply IH.
Qed.

Lemma program_trace_counts (ops : list Operation) :
  forall (threshold : LogLevel) (s : SysTick),
    let out := program_trace ops threshold s in
    let n := passing ops threshold in
    count is_start (fst out) = n
    /\ count is_finish (fst out) = n
    /\ count is_tick_read (fst out) = n
    /\ start_ticks (fst out) = readings n s
    /\ snd out = after_reads n s.
Proof.
  induction ops as [| op ops IH]; intros threshold s; cbv zeta.
  - repeat split.
  - destruct op as [c | level]; cbn [program_trace passing]; [| apply IH].
    destruct (level_lt (call_level c) threshold); [apply IH |].
    cbn [fst snd Nat.add readings after_reads].
    destruct (count_record (fst (getCoarseTickCount s)) (call_first c) (call_args c))
      as [Ht [Hs [Hf _]]].
    destruct (IH threshold (snd (getCoarseTickCount s))) as [I1 [I2 [I3 [I4 I5]]]].
    rewrite !count_app, start_ticks_app, start_ticks_record, Ht, Hs, Hf, I1, I2, I3, I4, I5.
    repeat split.
Qed.

End ProgramTraces.

Section ProgramProperties.

Context {Derived SysTick : Type}.
Context {sink : Sink Derived} {ticks : TickProvider SysTick}.
Context {target : Target}.

(** X1. A sequence of [log] and [setLevel] calls adds to the history one
    record per [log] call that passes the threshold in force when it is
    made, each stamped with the next reading of the provider, and nothing
    else; the sink ends where replaying those calls leads, and the provider
    where those readings leave it. *)
Theorem perform_all_writes_program_trace
  (r : Run Derived SysTick) (ops : list Operation) :
  let out := program_trace ops (m_level (self r)) (m_systick (self r)) in
  let r' := exec (perform_all ops) r in
  history r' = history r ++ fst out
  /\ m_derived (self r') = replay (fst out) (m_derived (self r))
  /\ m_systick (self r') = snd out.
Proof.
  cbv zeta. unfold exec. rewrite perform_all_run. repeat split.
Qed.

(** X2. Whatever is called on a newly constructed logger, the calls the
    collaborators see follow the protocol: a tick read, [startMessage] with
    the tick just read, at least one append, [finishMessage], and so on; no
    [startMessage] inside an open message, no append or [finishMessage]
    outside one, and no message left open at the end. *)
Theorem history_follows_protocol
  (derived : Derived) (systick : SysTick) (ops : list Operation) :
  phase_after Idle (history (exec (perform_all ops) (start derived systick))) = Some Idle.
Proof.
  unfold exec. rewrite perform_all_run. cbn [snd history start app].
  apply program_trace_phase.
Qed.

(** X3. On a newly constructed logger the records are stamped in reading
    order: the ticks given to [startMessage] are the first readings of the
    provider, as many as there are records, the provider has been read
    exactly that many times, and as many messages were finished. *)
Theorem records_are_stamped_in_reading_order
  (derived : Derived) (systick : SysTick) (ops : list Operation) :
  let r := exec (perform_all ops) (start derived systick) in
  let n := count is_start (history r) in
  start_ticks (history r) = readings n systick
  /\ m_systick (self r) = after_reads n systick
  /\ count is_tick_read (history r) = n
  /\ count is_finish (history r) = n.
Proof.
  cbv zeta. unfold exec. rewrite perform_all_run.
  cbn [snd history self m_systick m_level start new_Logger app].
  destruct (program_trace_counts ops DEBUG systick) as [H1 [H2 [H3 [H4 H5]]]].
  rewrite H1, H2, H3, H4, H5. repeat split.
Qed.

(** X4. A sequence of calls opens exactly as many messages as it holds [log]
    calls whose severity is not below the threshold in force at the call:
    a filtered call and a [setLevel] open none, a passing call opens one. *)
Theorem one_record_per_passing_call
  (r : Run Derived SysTick) (ops : list Operation) :
  count is_start (history (exec (perform_all ops) r)) =
  count is_start (history r) + passing ops (m_level (self r)).
Proof.
  unfold exec. rewrite perform_all_run. cbn [snd history].
  rewrite count_app.
  destruct (program_trace_counts ops (m_level (self r)) (m_systick (self r)))
    as [H1 _].
  rewrite H1. reflexivity.
Qed.

(** X5. A [log] call below the threshold in force where it stands can be
    taken out of a sequence of calls without changing what the sequence
    does: same level, same sink, same provider, same history. *)
Theorem filtered_call_is_invisible
  (r : Run Derived SysTick) (before after : list Operation) (c : LogCall) :
  level_lt (call_level c) (last_setLevel before (m_level (self r))) = true ->
  perform_all (before ++ CallLog c :: after) r = perform_all (before ++ after) r.
Proof.
  intros Hlt. rewrite !perform_all_app. cbn [perform_all]. unfold bind.
  cbn [perform]. unfold do_log. rewrite log_filtered; [reflexivity |].
  rewrite perform_all_level. exact Hlt.
Qed.

(** X6. The filter is monotone in the severity: where a call at severity [a]
    passes, a call at any severity [b] that is not below [a] passes too and
    writes its record. *)
Theorem log_passes_at_higher_severity
  (r : Run Derived SysTick) (a b : LogLevel) (first_arg : Arg) (args : list Arg) :
  level_lt a (m_level (self r)) = false ->
  level_lt b a = false ->
  log b first_arg args r = (tt, logged first_arg args r).
Proof.
  intros Ha Hb. apply log_passed.
  unfold level_lt in *. rewrite Z.ltb_ge in *. lia.
Qed.

(** X7. The filter is monotone in the threshold: a severity filtered at
    threshold [t] is filtered after [setLevel(t')] for every [t'] that is
    not below [t]. *)
Theorem log_filtered_at_higher_threshold
  (r : Run Derived SysTick) (level t t' : LogLevel) (first_arg : Arg) (args : list Arg) :
  level_lt level t = true ->
  level_lt t' t = false ->
  log level first_arg args (exec (setLevel t') r) = (tt, exec (setLevel t') r).
Proof.
  intros Hlt Ht. apply log_filtered. cbn [exec setLevel snd self m_level].
  unfold level_lt in *. rewrite Z.ltb_ge in Ht. rewrite Z.ltb_lt in *. lia.
Qed.

Lemma expand_as_log_call (c : MacroCall) (r : Run Derived SysTick) :
  expand c r = do_log (as_log_call c) r.
Proof. destruct c as [[] fmt args]; reflexivity. Qed.

Lemma expand_all_as_perform_all (cs : list MacroCall) :
  forall r : Run Derived SysTick,
    expand_all cs r = perform_all (map (fun c => CallLog (as_log_call c)) cs) r.
Proof.
  induction cs as [| c cs IH]; intros r; [reflexivity |].
  cbn [expand_all map perform_all perform]. unfold bind.
  rewrite expand_as_log_call. apply IH.
Qed.

(** X8. Each macro logs at its own severity with the handle of its own
    literal operator: the handle is the one interning gives for the macro's
    severity, its storage holds the format and the terminator, the
    declaration of that storage asks for the section named after that
    severity, and the macro use is a no-op when that severity is below the
    threshold and writes the record of handle and arguments otherwise.  No
    macro logs at [OFF]. *)
Theorem macro_logs_at_its_own_severity
  (r : Run Derived SysTick) (c : MacroCall) :
  let severity := macro_level (macro c) in
  let h := macro_handle c in
  severity <> OFF
  /\ intern severity (macro_fmt c) = Some h
  /\ declared_section (block (str h)) = designated_section severity
  /\ object_contents (block (str h)) = Some (macro_fmt c ++ [NUL])
  /\ expand c r =
       (tt, if level_lt severity (m_level (self r)) then r
            else logged (ByValue h) (macro_args c) r).
Proof.
  cbv zeta. rewrite expand_as_log_call. unfold do_log. rewrite log_run.
  destruct c as [[] fmt args]; cbn; repeat split; discriminate.
Qed.

(** X9. After [setLevel(OFF)] a program that logs through the four macros
    only is silent: any sequence of macro uses leaves the run as
    [setLevel(OFF)] left it, with no tick read and no sink call. *)
Theorem macros_are_silent_after_setLevel_OFF
  (r : Run Derived SysTick) (cs : list MacroCall) :
  expand_all cs (exec (setLevel OFF) r) = (tt, exec (setLevel OFF) r).
Proof.
  induction cs as [| c cs IH]; [reflexivity |].
  cbn [expand_all]. unfold bind. rewrite expand_as_log_call. unfold do_log.
  rewrite log_filtered; [exact IH |].
  cbn [exec setLevel snd self m_level as_log_call call_level].
  destruct (macro c); reflexivity.
Qed.

Lemma passing_macros_at_DEBUG (cs : list MacroCall) :
  passing (map (fun c => CallLog (as_log_call c)) cs) DEBUG = List.length cs.
Proof.
  induction cs as [| c cs IH]; [reflexivity |].
  cbn [map passing as_log_call call_level List.length].
  rewrite level_lt_DEBUG_r, IH. reflexivity.
Qed.

Lemma appends_of_macros_at_DEBUG (cs : list MacroCall) :
  forall s : SysTick,
    count is_append
      (fst (program_trace (map (fun c => CallLog (as_log_call c)) cs) DEBUG s)) =
    List.length cs + total_args cs.
Proof.
  induction cs as [| c cs IH]; intros s; [reflexivity |].
  cbn [map program_trace as_log_call call_level call_first call_args].
  rewrite level_lt_DEBUG_r. cbn [fst]. rewrite count_app, IH.
  destruct (count_record (fst (getCoarseTickCount s))
              (ByValue (macro_handle c)) (macro_args c)) as [_ [_ [_ Ha]]].
  rewrite Ha. cbn [List.length total_args]. lia.
Qed.

(** X10. On a newly constructed logger, while [setLevel] is not called,
    every macro use writes a record: [n] uses open and finish [n] messages,
    and the appends are one per use, for the handle, plus one per
    argument. *)
Theorem macros_all_log_on_new_logger
  (derived : Derived) (systick : SysTick) (cs : list MacroCall) :
  let r := exec (expand_all cs) (start derived systick) in
  count is_start (history r) = List.length cs
  /\ count is_finish (history r) = List.length cs
  /\ count is_append (history r) = List.length cs + total_args cs
  /\ m_level (self r) = DEBUG.
Proof.
  cbv zeta. unfold exec. rewrite expand_all_as_perform_all, perform_all_run.
  cbn [snd history self m_level m_systick start new_Logger app].
  destruct (program_trace_counts (map (fun c => CallLog (as_log_call c)) cs)
              DEBUG systick) as [H1 [H2 _]].
  rewrite H1, H2, passing_macros_at_DEBUG, appends_of_macros_at_DEBUG.
  repeat split. clear H1 H2.
  induction cs as [| c cs IH]; [reflexivity | exact IH].
Qed.

End ProgramProperties.

(** ** Interned storage as text *)

Lemma c_string_stops (visible rest : list ascii) :
  ~ In NUL visible -> c_string (visible ++ NUL :: rest) = Some visible.
Proof.
  induction visible as [| c visible IH]; intros Hno.
  - cbn [app c_string]. rewrite Ascii.eqb_refl. reflexivity.
  - cbn [app c_string]. destruct (Ascii.eqb_spec c NUL) as [-> | _].
    + exfalso. apply Hno. left. reflexivity.
    + rewrite IH; [reflexivity |]. intros Hin. apply Hno. right. exact Hin.
Qed.

(** Without a terminator an array holds no string. *)
Lemma c_string_unterminated (cs : list ascii) :
  ~ In NUL cs -> c_string cs = None.
Proof.
  induction cs as [| c cs IH]; intros Hno; [reflexivity |].
  cbn [c_string]. destruct (Ascii.eqb_spec c NUL) as [-> | _].
  - exfalso. apply Hno. left. reflexivity.
  - rewrite IH; [reflexivity |]. intros Hin. apply Hno. right. exact Hin.
Qed.

Lemma text_of_interned (severity : LogLevel) (fmt : list ascii) (h : InternedString) :
  intern severity fmt = Some h -> text_of h = c_string (fmt ++ [NUL]).
Proof.
  intros Hh. destruct (intern_storage _ _ Hh) as [t [-> _]]. reflexivity.
Qed.

(** X11. A handle identifies its literal and its severity: two interning
    results that are one handle come from the same severity and from the
    same characters, so distinct literals never share a handle. *)
Theorem handle_identifies_severity_and_literal
  (s1 s2 : LogLevel) (fmt1 fmt2 : list ascii) (h : InternedString) :
  intern s1 fmt1 = Some h ->
  intern s2 fmt2 = Some h ->
  s1 = s2 /\ fmt1 = fmt2.
Proof.
  intros H1 H2.
  destruct (intern_storage _ _ H1) as [t1 [E1 S1]].
  destruct (intern_storage _ _ H2) as [t2 [E2 S2]].
  rewrite E1 in E2. unfold decay in E2. injection E2 as Et Ef.
  split.
  - apply (@designated_section_injective s1 s2 (section_of t1)).
    + symmetry. exact S1.
    + rewrite Et. symmetry. exact S2.
  - apply app_inv_tail in Ef. exact Ef.
Qed.

(** X12. The storage behind a handle is a null-terminated string: a reader
    that stops at the first zero character stays inside the array and, when
    the literal holds no zero character, the empty literal included, finds
    exactly the format literal; the array is the literal followed by the
    zero the operators append, without which it would hold no string
    ([c_string_unterminated]). *)
Theorem interned_text_reads_back
  (severity : LogLevel) (fmt : list ascii) (h : InternedString) :
  intern severity fmt = Some h ->
  ~ In NUL fmt ->
  text_of h = Some fmt
  /\ object_contents (block (str h)) = Some (fmt ++ [NUL]).
Proof.
  intros Hh Hno. rewrite (text_of_interned _ _ Hh).
  destruct (intern_storage _ _ Hh) as [t [-> _]].
  split; [apply c_string_stops, Hno | reflexivity].
Qed.

(** X13. A zero character inside the literal cuts the text short for such a
    reader, which finds only what precedes it, while the storage still holds
    the whole literal and the terminator: two literals that differ only
    after the zero read the same and yet have different handles. *)
Theorem interned_text_stops_at_embedded_NUL
  (severity : LogLevel) (visible hidden other : list ascii) (h h' : InternedString) :
  intern severity (visible ++ NUL :: hidden) = Some h ->
  intern severity (visible ++ NUL :: other) = Some h' ->
  ~ In NUL visible ->
  hidden <> other ->
  text_of h = Some visible
  /\ text_of h' = Some visible
  /\ object_contents (block (str h)) = Some ((visible ++ NUL :: hidden) ++ [NUL])
  /\ h <> h'.
Proof.
  intros Hh Hh' Hno Hdiff.
  rewrite (text_of_interned _ _ Hh), (text_of_interned _ _ Hh').
  rewrite <- !app_assoc. cbn [app]. rewrite !(c_string_stops _ _ Hno).
  destruct (intern_storage _ _ Hh) as [t [E _]].
  repeat split.
  - rewrite E. cbn. rewrite <- app_assoc. reflexivity.
  - intros ->. apply Hdiff.
    pose proof (intern_injective _ _ _ Hh Hh') as Heq.
    apply app_inv_head in Heq. congruence.
Qed.

(** ** Instances of the program properties on the bench *)

(** [setLevel(WARNING)], a call at [DEBUG], a call at [ERROR]: the call at
    [DEBUG] can be left out. *)
Lemma filtered_call_is_invisible_witness :
  level_lt DEBUG (last_setLevel [CallSetLevel WARNING] (m_level (self fresh))) = true
  /\ perform_all
       ([CallSetLevel WARNING]
          ++ CallLog (mkLogCall DEBUG (ByValue (intern_debug fmt_x)) [])
          :: [CallLog (mkLogCall ERROR (ByValue (intern_error fmt_y)) [])]) fresh =
     perform_all
       ([CallSetLevel WARNING]
          ++ [CallLog (mkLogCall ERROR (ByValue (intern_error fmt_y)) [])]) fresh.
Proof.
  split; [reflexivity |].
  apply (filtered_call_is_invisible fresh [CallSetLevel WARNING]
           [CallLog (mkLogCall ERROR (ByValue (intern_error fmt_y)) [])]
           (mkLogCall DEBUG (ByValue (intern_debug fmt_x)) [])).
  reflexivity.
Defined.

(** Threshold [WARNING]: a call at [WARNING] passes, so does one at
    [ERROR]. *)
Lemma log_passes_at_higher_severity_witness :
  level_lt WARNING (m_level (self at_warning)) = false
  /\ level_lt ERROR WARNING = false
  /\ log ERROR (ByValue (intern_error fmt_y)) [] at_warning =
     (tt, logged (ByValue (intern_error fmt_y)) [] at_warning).
Proof.
  split; [reflexivity |].
  split; [reflexivity |].
  apply (log_passes_at_higher_severity at_warning WARNING ERROR
           (ByValue (intern_error fmt_y)) []); reflexivity.
Defined.

(** [INFO] is filtered at [WARNING], and still after [setLevel(ERROR)]. *)
Lemma log_filtered_at_higher_threshold_witness :
  level_lt INFO WARNING = true
  /\ level_lt ERROR WARNING = false
  /\ log INFO (ByValue (intern_info fmt_value)) [forty_two] (exec (setLevel ERROR) fresh) =
     (tt, exec (setLevel ERROR) fresh).
Proof.
  split; [reflexivity |].
  split; [reflexivity |].
  apply (log_filtered_at_higher_threshold fresh INFO WARNING ERROR
           (ByValue (intern_info fmt_value)) [forty_two]); reflexivity.
Defined.

(** The handle of ["value=%d"] at [INFO]. *)
Lemma handle_identifies_severity_and_literal_witness :
  intern INFO fmt_value = Some (intern_info fmt_value)
  /\ INFO = INFO
  /\ fmt_value = fmt_value.
Proof.
  split; [reflexivity |].
  exact (@handle_identifies_severity_and_literal INFO INFO fmt_value fmt_value
           (intern_info fmt_value) eq_refl eq_refl).
Defined.

(** ["value=%d"] holds no zero character and reads back. *)
Lemma interned_text_reads_back_witness :
  intern INFO fmt_value = Some (intern_info fmt_value)
  /\ ~ In NUL fmt_value
  /\ text_of (intern_info fmt_value) = Some fmt_value
  /\ object_contents (block (str (intern_info fmt_value))) = Some (fmt_value ++ [NUL]).
Proof.
  assert (Hno : ~ In NUL fmt_value).
  { intros H. cbn in H.
    repeat (destruct H as [H | H]; [discriminate H |]). exact H. }
  split; [reflexivity |].
  split; [exact Hno |].
  exact (@interned_text_reads_back INFO fmt_value (intern_info fmt_value)
           eq_refl Hno).
Defined.

(** The literals ["x\0a"] and ["x\0b"] at [DEBUG]. *)
Lemma interned_text_stops_at_embedded_NUL_witness :
  intern DEBUG (fmt_x ++ NUL :: ["a"%char]) = Some (intern_debug (fmt_x ++ NUL :: ["a"%char]))
  /\ intern DEBUG (fmt_x ++ NUL :: ["b"%char]) = Some (intern_debug (fmt_x ++ NUL :: ["b"%char]))
  /\ ~ In NUL fmt_x
  /\ ["a"%char] <> ["b"%char]
  /\ text_of (intern_debug (fmt_x ++ NUL :: ["a"%char])) = Some fmt_x
  /\ text_of (intern_debug (fmt_x ++ NUL :: ["b"%char])) = Some fmt_x
  /\ intern_debug (fmt_x ++ NUL :: ["a"%char]) <> intern_debug (fmt_x ++ NUL :: ["b"%char]).
Proof.
  assert (Hno : ~ In NUL fmt_x).
  { intros H. cbn in H.
    repeat (destruct H as [H | H]; [discriminate H |]). exact H. }
  assert (Hdiff : ["a"%char] <> ["b"%char]) by discriminate.
  split; [reflexivity |].
  split; [reflexivity |].
  split; [exact Hno |].
  split; [exact Hdiff |].
  pose proof (@interned_text_stops_at_embedded_NUL DEBUG fmt_x ["a"%char] ["b"%char]
                _ _ eq_refl eq_refl Hno Hdiff) as [H1 [H2 [_ H3]]].
  split; [exact H1 |].
  split; [exact H2 | exact H3].
Defined.
